(** * Remote append-only log shipper ([logger.js])

    A shallow embedding of the CloudWatch log shipper of the API: the
    provisioning routine [ensureCloudWatchSetup], the append operation
    [enviarLogCloudWatch] and the two entry points [logInfo] and [logError],
    together with the event constructor [gerarLog].

    The JavaScript module keeps one mutable variable ([sequenceToken]), writes
    to the console and talks to the AWS SDK client.  The embedding threads a
    [machine] (token, console, the requests handed to the client, and the
    state of the remote store) through a small state-and-exception monad.
    The SDK client, the clock and the process environment are an interface
    ([Runtime]); a reference store implementing that interface is given in
    [Module RefStore].

    Every operation is run from its call to its completion; [run_all] is a
    run in which each operation has completed before the next one starts.
    Calls that overlap at an [await] are treated apart, with the append cut
    at its [await] ([enviar_start], [store_answers], [enviar_resume]).

    The payloads are the ones [JSON.stringify] serialises; what the append
    does with a payload it can not serialise (a cyclic object, a BigInt) is
    outside the model, and the statements below are about the payloads the
    model has. *)

From stdpp Require Import gmap strings list fin_maps pretty.
From Stdlib Require Import ZArith.

Set Warnings "-register-all".
Local Open Scope string_scope.
Local Open Scope list_scope.

(** ** JavaScript values

    The payloads that reach the logger are plain data: the message text, the
    Express request (read only through [originalUrl]), the error detail and
    the extra fields.  Objects are finite maps from property names to
    values; strings are sequences of code units below 256; numbers are the
    integer-valued ones. *)

Inductive value : Type :=
| VUndefined
| VNull
| VBool (b : bool)
| VNum (n : Z)
| VStr (s : string)
| VArr (elems : list value)
| VObj (props : gmap string value).

(** What a JavaScript [throw] or a rejected promise carries in this module:
    a [TypeError] raised by the language itself, or the error object with
    which the SDK rejects a request ([err.code], [err.message]). *)
Inductive exn : Type :=
| TypeError (msg : string)
| AWSError (code : string) (msg : string).

(** [if (v)]: every value is truthy except [undefined], [null], [false],
    [0] and the empty string. *)
Definition truthy (v : value) : bool :=
  match v with
  | VUndefined | VNull => false
  | VBool b => b
  | VNum n => negb (n =? 0)%Z
  | VStr s => negb (String.eqb s "")
  | VArr _ | VObj _ => true
  end.

(** [v !== null]. *)
Definition strict_ne_null (v : value) : bool :=
  match v with
  | VNull => false
  | _ => true
  end.

(** A parameter declared [p = d] takes its default exactly when the argument
    is [undefined] (an absent argument is [undefined]; [null] is kept). *)
Definition default_param (arg d : value) : value :=
  match arg with
  | VUndefined => d
  | _ => arg
  end.

(** The properties of the array-like values, keyed by the decimal index. *)
Definition index_props (l : list value) : gmap string value :=
  list_to_map (imap (fun i v => (pretty i, v)) l).

Definition code_units (s : string) : list value :=
  (fun c => VStr (String c EmptyString)) <$> String.list_ascii_of_string s.

(** The own enumerable properties of a value, as the spread [...v] and a
    property read see them: those of an object, the indexed elements of an
    array, the indexed code units of a string, none for the other
    primitives. *)
Definition own_props (v : value) : gmap string value :=
  match v with
  | VObj props => props
  | VArr elems => index_props elems
  | VStr s => index_props (code_units s)
  | VUndefined | VNull | VBool _ | VNum _ => ∅
  end.

Definition nullish (v : value) : bool :=
  match v with
  | VUndefined | VNull => true
  | _ => false
  end.

Definition nullish_name (v : value) : string :=
  match v with
  | VNull => "null"
  | _ => "undefined"
  end.

(** [v.k] for a data property [k] that no prototype defines (the logger
    reads [originalUrl] only): a [TypeError] on [null] and [undefined], the
    own property otherwise, [undefined] when there is none. *)
Definition member (v : value) (k : string) : exn + value :=
  if nullish v
  then inl (TypeError ("Cannot read properties of " +:+ nullish_name v +:+
                       " (reading '" +:+ k +:+ "')"))
  else inr (default VUndefined (own_props v !! k)).

(** [v?.k]: [undefined] on [null] and [undefined], [v.k] otherwise. *)
Definition optional_member (v : value) (k : string) : value :=
  if nullish v then VUndefined else default VUndefined (own_props v !! k).

(** [obj.k = x] on an object (the logger assigns to the object [gerarLog]
    has just built, and to nothing else). *)
Definition set_property (obj : value) (k : string) (x : value) : value :=
  match obj with
  | VObj props => VObj (<[k := x]> props)
  | _ => obj
  end.

(** Reading a field of a built event. *)
Definition field (k : string) (v : value) : option value :=
  match v with
  | VObj props => props !! k
  | _ => None
  end.

(** ** Event construction

    [{ level: level, message, route: rota, ...extra }]: the three named
    properties are defined first and the own properties of [extra] are
    copied over them, so on a shared key the later definition, the one of
    [extra], is the one that stays. *)
Definition gerarLog (level message rota extra : value) : value :=
  VObj (own_props extra ∪
        {[ "level" := level; "message" := message; "route" := rota ]}).

(** ** The SDK client, the clock and the environment *)

(** [JSON.stringify(v)], kept symbolic: the text of a log event is
    represented by the value it serialises. *)
Inductive json : Type :=
| JSON_stringify (v : value).

Record LogGroup : Type := { logGroupName : string }.

Record LogStream : Type :=
  { logStreamName : string;
    uploadSequenceToken : option string }.

Record InputLogEvent : Type :=
  { message : json;
    timestamp : Z }.

(** The [params] object of [putLogEvents].  [p_sequenceToken] holds the
    value of the module variable at the time the request is built. *)
Record PutLogEventsParams : Type :=
  { logEvents : list InputLogEvent;
    p_logGroupName : option string;
    p_logStreamName : option string;
    p_sequenceToken : value }.

Record PutLogEventsResponse : Type :=
  { nextSequenceToken : option string }.

(** The requests the module hands to the client. *)
Inductive request : Type :=
| DescribeLogGroups (logGroupNamePrefix : option string)
| CreateLogGroup (name : option string)
| DescribeLogStreams (group logStreamNamePrefix : option string)
| CreateLogStream (group name : option string)
| PutLogEvents (params : PutLogEventsParams).

(** A member that a response may leave out reads as [undefined]. *)
Definition of_optional (o : option string) : value :=
  match o with
  | Some s => VStr s
  | None => VUndefined
  end.

(** The token a request presents on the wire: the SDK leaves a [null] or
    [undefined] parameter out of the request. *)
Definition presented_token (p : PutLogEventsParams) : option string :=
  match p_sequenceToken p with
  | VStr s => Some s
  | _ => None
  end.

(** The outside of the module.  [world] is the state of the remote store
    (and of the clock); every [.promise()] either resolves with a response
    or rejects with an error, and may change the world.  Synchronous code
    takes no time: the clock is read off the world. *)
Class Runtime : Type :=
  { world : Type;
    process_env : string -> option string;
    Date_now : world -> Z;
    Date_toISOString : world -> string;
    describeLogGroups :
      option string -> world -> world * (exn + list LogGroup);
    createLogGroup :
      option string -> world -> world * (exn + unit);
    describeLogStreams :
      option string -> option string -> world -> world * (exn + list LogStream);
    createLogStream :
      option string -> option string -> world -> world * (exn + unit);
    putLogEvents :
      PutLogEventsParams -> world -> world * (exn + PutLogEventsResponse) }.

Inductive console_entry : Type :=
| Console_log (text : string)
| Console_error (text : string) (err : exn).

(** ** The module, over any runtime *)

Section Logger.
Context {rt : Runtime}.

Definition LOG_GROUP_NAME : option string := process_env "LOG_GROUP_NAME".
Definition LOG_STREAM_NAME : option string := process_env "LOG_STREAM_NAME".

(** The state the module runs in: its one variable, what it has printed,
    the requests it has handed to the client (oldest first), and the
    remote store. *)
Record machine : Type :=
  { sequenceToken : value;
    console : list console_entry;
    sent : list request;
    cloud : world }.

(** [let sequenceToken = null;] at load time. *)
Definition initial (w : world) : machine :=
  {| sequenceToken := VNull; console := []; sent := []; cloud := w |}.

(** A computation either completes with a result or throws. *)
Definition js (A : Type) : Type := machine -> machine * (exn + A).

Definition ret {A} (a : A) : js A := fun m => (m, inr a).

Definition bind {A B} (c : js A) (k : A -> js B) : js B :=
  fun m =>
    match c m with
    | (m', inr a) => k a m'
    | (m', inl e) => (m', inl e)
    end.

(** [try { body } catch (err) { handler }]. *)
Definition try_catch {A} (body : js A) (handler : exn -> js A) : js A :=
  fun m =>
    match body m with
    | (m', inl e) => handler e m'
    | (m', inr a) => (m', inr a)
    end.

(** [await client.op(params).promise()]: the request is recorded, the
    store answers, a rejection is thrown. *)
Definition await {A} (r : request) (op : world -> world * (exn + A)) : js A :=
  fun m =>
    let (w', answer) := op (cloud m) in
    ({| sequenceToken := sequenceToken m;
        console := console m;
        sent := sent m ++ [r];
        cloud := w' |}, answer).

Definition set_sequenceToken (v : value) : js unit :=
  fun m =>
    ({| sequenceToken := v;
        console := console m;
        sent := sent m;
        cloud := cloud m |}, inr tt).

Definition print (e : console_entry) : js unit :=
  fun m =>
    ({| sequenceToken := sequenceToken m;
        console := console m ++ [e];
        sent := sent m;
        cloud := cloud m |}, inr tt).

Definition console_log (text : string) : js unit := print (Console_log text).

Definition console_error (text : string) (err : exn) : js unit :=
  print (Console_error text err).

(** [new Date().toISOString()]. *)
Definition new_Date_toISOString : js string :=
  fun m => (m, inr (Date_toISOString (cloud m))).

(** Reading the module state. *)
Definition get : js machine := fun m => (m, inr m).

(** A synchronous expression that may throw. *)
Definition eval {A} (r : exn + A) : js A := fun m => (m, r).

#[local] Instance js_ret : MRet js := @ret.
#[local] Instance js_bind : MBind js := fun A B k c => bind c k.

(** Provisioning: the group is looked up by its exact name among the
    groups the store lists; the stream is created when the store lists no
    stream at all under the prefix, and otherwise the token of the first
    listed stream is taken. *)
Definition ensureCloudWatchSetup : js unit :=
  try_catch
    (groups ← await (DescribeLogGroups LOG_GROUP_NAME)
                    (describeLogGroups LOG_GROUP_NAME);
     match find (fun g => bool_decide (Some (logGroupName g) = LOG_GROUP_NAME))
                groups with
     | None => await (CreateLogGroup LOG_GROUP_NAME)
                     (createLogGroup LOG_GROUP_NAME)
     | Some _ => ret tt
     end;;
     streams ← await (DescribeLogStreams LOG_GROUP_NAME LOG_STREAM_NAME)
                     (describeLogStreams LOG_GROUP_NAME LOG_STREAM_NAME);
     match streams with
     | [] => await (CreateLogStream LOG_GROUP_NAME LOG_STREAM_NAME)
                   (createLogStream LOG_GROUP_NAME LOG_STREAM_NAME)
     | first :: _ => set_sequenceToken (of_optional (uploadSequenceToken first))
     end)
    (fun err => console_error "Erro ao configurar CloudWatch:" err).

(** The [params] constant of [enviarLogCloudWatch], built from the event
    and the state at the time of the call. *)
Definition params (log : value) (m : machine) : PutLogEventsParams :=
  {| logEvents := [ {| message := JSON_stringify log;
                       timestamp := Date_now (cloud m) |} ];
     p_logGroupName := LOG_GROUP_NAME;
     p_logStreamName := LOG_STREAM_NAME;
     p_sequenceToken := sequenceToken m |}.

(** The append.  Only the [putLogEvents] call and what follows it are
    inside the [try]; the handler prints the error and nothing else. *)
Definition enviarLogCloudWatch (log : value) : js unit :=
  now ← new_Date_toISOString;
  console_log ("Enviando log " +:+ now);;
  m ← get;
  let params := params log m in
  try_catch
    (response ← await (PutLogEvents params) (putLogEvents params);
     set_sequenceToken (of_optional (nextSequenceToken response));;
     now ← new_Date_toISOString;
     console_log ("Log enviado com sucesso " +:+ now))
    (fun err => console_error "Erro ao enviar log:" err).

(** [req.originalUrl] is evaluated, as an argument of [gerarLog], before
    anything else happens. *)
Definition logInfo (message req extra_arg : value) : js unit :=
  let extra := default_param extra_arg (VObj ∅) in
  url ← eval (member req "originalUrl");
  let log := gerarLog (VStr "info") message url extra in
  enviarLogCloudWatch log.

Definition logError (message req error_arg extra_arg : value) : js unit :=
  let error := default_param error_arg (VObj ∅) in
  let extra := default_param extra_arg (VObj ∅) in
  let url := if strict_ne_null req
             then optional_member req "originalUrl"
             else VStr "" in
  let log := gerarLog (VStr "error") message url extra in
  let log := if truthy error
             then set_property log "error" (VObj {[ "error" := error ]})
             else log in
  enviarLogCloudWatch log.

End Logger.

(** ** A reference store

    The remote log store as the logger's interface needs it: groups, and
    streams that chain their appends by a sequence token.  A stream that was
    never appended to expects no token; every accepted append mints the
    token the next append has to present; an append presenting anything else
    is rejected and leaves the stream as it was. *)

Module RefStore.

Record stream : Type :=
  { group : string;
    name : string;
    expected : option string;
    delivered : list InputLogEvent }.

Record store : Type :=
  { groups : list string;
    streams : list stream;
    clock : Z }.

Definition rejected {A} (w : store) (code : string) : store * (exn + A) :=
  (w, inl (AWSError code "request rejected")).

Definition has_prefix (prefix : option string) (s : string) : bool :=
  match prefix with
  | None => true
  | Some p => String.prefix p s
  end.

Definition is_stream (g n : string) (s : stream) : bool :=
  String.eqb (group s) g && String.eqb (name s) n.

Definition mint (n : nat) : string := "tok-" +:+ pretty n.

Definition describe_groups (prefix : option string) (w : store)
  : store * (exn + list LogGroup) :=
  (w, inr (Build_LogGroup <$> List.filter (has_prefix prefix) (groups w))).

Definition create_group (n : option string) (w : store)
  : store * (exn + unit) :=
  match n with
  | None => rejected w "MissingRequiredParameter"
  | Some n =>
      if existsb (String.eqb n) (groups w)
      then rejected w "ResourceAlreadyExistsException"
      else ({| groups := groups w ++ [n];
               streams := streams w;
               clock := clock w + 1 |}, inr tt)
  end.

Definition describe_streams (g prefix : option string) (w : store)
  : store * (exn + list LogStream) :=
  match g with
  | None => rejected w "MissingRequiredParameter"
  | Some g =>
      if existsb (String.eqb g) (groups w)
      then (w, inr ((fun s => {| logStreamName := name s;
                                 uploadSequenceToken := expected s |})
                    <$> List.filter
                          (fun s => String.eqb (group s) g
                                    && has_prefix prefix (name s))
                          (streams w)))
      else rejected w "ResourceNotFoundException"
  end.

Definition create_stream (g n : option string) (w : store)
  : store * (exn + unit) :=
  match g, n with
  | Some g, Some n =>
      if negb (existsb (String.eqb g) (groups w))
      then rejected w "ResourceNotFoundException"
      else if existsb (is_stream g n) (streams w)
      then rejected w "ResourceAlreadyExistsException"
      else ({| groups := groups w;
               streams := streams w ++
                          [ {| group := g; name := n;
                               expected := None; delivered := [] |} ];
               clock := clock w + 1 |}, inr tt)
  | _, _ => rejected w "MissingRequiredParameter"
  end.

(** The append: the presented token has to be the expected one. *)
Definition append (p : PutLogEventsParams) (s : stream) : stream :=
  let all := delivered s ++ logEvents p in
  {| group := group s; name := name s;
     expected := Some (mint (length all));
     delivered := all |}.

Definition put (p : PutLogEventsParams) (w : store)
  : store * (exn + PutLogEventsResponse) :=
  match p_logGroupName p, p_logStreamName p with
  | Some g, Some n =>
      match find (is_stream g n) (streams w) with
      | None => rejected w "ResourceNotFoundException"
      | Some s =>
          if bool_decide (presented_token p = expected s)
          then ({| groups := groups w;
                   streams := (fun s' => if is_stream g n s'
                                         then append p s' else s')
                              <$> streams w;
                   clock := clock w + 1 |},
                inr {| nextSequenceToken := expected (append p s) |})
          else rejected w "InvalidSequenceTokenException"
      end
  | _, _ => rejected w "MissingRequiredParameter"
  end.

(** The events the store holds for a stream. *)
Definition events_of (g n : string) (w : store) : list InputLogEvent :=
  match find (is_stream g n) (streams w) with
  | Some s => delivered s
  | None => []
  end.

Definition runtime (env : string -> option string) : Runtime :=
  {| world := store;
     process_env := env;
     Date_now := clock;
     Date_toISOString := fun w => "T" +:+ pretty (clock w);
     describeLogGroups := describe_groups;
     createLogGroup := create_group;
     describeLogStreams := describe_streams;
     createLogStream := create_stream;
     putLogEvents := put |}.

(** The configuration of the deployment: group and stream name. *)
Definition env (g n : string) (k : string) : option string :=
  if String.eqb k "LOG_GROUP_NAME" then Some g
  else if String.eqb k "LOG_STREAM_NAME" then Some n
  else None.

End RefStore.

(** ** Observations and runs *)

Section Observations.
Context {rt : Runtime}.

(** The events a request carries, read back from their serialised text. *)
Definition logged (r : request) : list value :=
  match r with
  | PutLogEvents p =>
      (fun e => match message e with JSON_stringify v => v end) <$> logEvents p
  | _ => []
  end.

(** The events the module has handed to the client so far. *)
Definition emitted (m : machine) : list value :=
  concat (logged <$> sent m).

(** The value a reserved field ends up with after the spread of [extra]:
    the call's own value, unless [extra] has a property of that name. *)
Definition merged_field (extra : value) (k : string) (own : value) : value :=
  default own (own_props extra !! k).

(** The store accepts an append to the configured stream that presents no
    token: the stream is there and has never been appended to. *)
Definition accepts_first_append (w : world) : Prop :=
  forall q : PutLogEventsParams,
    p_logGroupName q = LOG_GROUP_NAME ->
    p_logStreamName q = LOG_STREAM_NAME ->
    presented_token q = None ->
    exists w' response, putLogEvents q w = (w', inr response).

(** The operations of the component, and runs of them one after the
    other. *)
Inductive operation : Type :=
| Provision
| Append (log : value)
| LogInfo (message req extra : value)
| LogError (message req error extra : value).

Definition run (op : operation) : js unit :=
  match op with
  | Provision => ensureCloudWatchSetup
  | Append log => enviarLogCloudWatch log
  | LogInfo message req extra => logInfo message req extra
  | LogError message req error extra => logError message req error extra
  end.

Definition run_all (ops : list operation) (m : machine) : machine :=
  foldl (fun m op => (run op m).1) m ops.


End Observations.

(** ** Concrete stores and calls *)

Module Scenario.
Import RefStore.

#[local] Instance rt0 : Runtime := runtime (env "fatec-logs" "api").

Definition an_event : InputLogEvent :=
  {| message := JSON_stringify (VObj {[ "level" := VStr "info" ]});
     timestamp := 1 |}.

(** Nothing provisioned yet. *)
Definition w_empty : store :=
  {| groups := []; streams := []; clock := 10 |}.

(** The configured stream exists and was never appended to. *)
Definition w_new : store :=
  {| groups := ["fatec-logs"];
     streams := [ {| group := "fatec-logs"; name := "api";
                     expected := None; delivered := [] |} ];
     clock := 12 |}.

(** The configured stream holds one event and expects ["tok-1"]. *)
Definition w_one : store :=
  {| groups := ["fatec-logs"];
     streams := [ {| group := "fatec-logs"; name := "api";
                     expected := Some "tok-1"; delivered := [an_event] |} ];
     clock := 20 |}.

(** The group holds a stream ["api-dev"] and no stream ["api"]. *)
Definition w_sibling : store :=
  {| groups := ["fatec-logs"];
     streams := [ {| group := "fatec-logs"; name := "api-dev";
                     expected := Some "tok-1"; delivered := [an_event] |} ];
     clock := 30 |}.

(** The module right after loading, over the store [w_new]. *)
Definition m_new : machine := initial w_new.

(** The module holding a token the store has moved past. *)
Definition m_stale : machine :=
  {| sequenceToken := VStr "tok-0"; console := []; sent := []; cloud := w_one |}.

(** The module holding the token the store expects. *)
Definition m_fresh : machine :=
  {| sequenceToken := VStr "tok-1"; console := []; sent := []; cloud := w_one |}.

(** The module after provisioning against the empty store. *)
Definition m_provisioned : machine := (ensureCloudWatchSetup (initial w_empty)).1.

Definition a_request : value := VObj {[ "originalUrl" := VStr "/produtos" ]}.

Definition a_log : value :=
  gerarLog (VStr "info") (VStr "Produto criado") (VStr "/produtos") (VObj ∅).

End Scenario.

(** ** The startup hook of the server

    [server.js] hooks the logger onto the connection to MongoDB:
    [mongoose.connect(..).then(() => logInfo("MongoDB conectado", null))
       .catch((err) => logError("Erro ao logar mongodb" + err, null, err))].
    The [catch] handles a rejection of the connection and a rejection of the
    [then] callback alike. *)

(** [String(err)] for an error object, after [Error.prototype.toString]: the
    name, then the message after a colon, either alone when the other is
    empty.  The name of an SDK error is its code. *)
Definition error_toString (e : exn) : string :=
  let (name, msg) := match e with
                     | TypeError msg => ("TypeError", msg)
                     | AWSError code msg => (code, msg)
                     end in
  if String.eqb name "" then msg
  else if String.eqb msg "" then name
  else name +:+ ": " +:+ msg.

Section Startup.
Context {rt : Runtime}.

(** The error object as the data the logger nests in the event; which
    enumerable properties an error object has is left to the runtime. *)
Variable error_object : exn -> value.

(** The connection either succeeds or fails with an error, given by its
    text [String(err)] and its data. *)
Definition on_connect (failure : option (string * value)) : js unit :=
  match failure with
  | None =>
      try_catch
        (logInfo (VStr "MongoDB conectado") VNull VUndefined)
        (fun err =>
           logError (VStr ("Erro ao logar mongodb" +:+ error_toString err))
                    VNull (error_object err) VUndefined)
  | Some (text, detail) =>
      logError (VStr ("Erro ao logar mongodb" +:+ text)) VNull detail VUndefined
  end.

End Startup.

(** ** Runs against the reference store *)

(** The module deployed with group [g] and stream [n] on the reference
    store. *)
Definition deployed (g n : string) : Runtime :=
  RefStore.runtime (RefStore.env g n).

(** The token a value of the module variable puts on the wire. *)
Definition wire_token (v : value) : option string :=
  match v with
  | VStr s => Some s
  | _ => None
  end.

(** The configured stream exists and the module holds the token the store
    expects for it. *)
Definition in_sync (g n : string) (m : @machine (deployed g n)) : Prop :=
  exists s,
    find (RefStore.is_stream g n) (RefStore.streams (cloud m)) = Some s
    /\ wire_token (sequenceToken m) = RefStore.expected s.


(** No other stream of the group has a name that starts with the configured
    stream name. *)
Definition no_sibling (g n : string) (w : RefStore.store) : Prop :=
  forall s, s ∈ RefStore.streams w ->
    RefStore.group s = g ->
    String.prefix n (RefStore.name s) = true ->
    RefStore.name s = n.

(** The operations that log: everything but provisioning. *)
Definition is_logging (op : operation) : bool :=
  match op with
  | Provision => false
  | _ => true
  end.

(** The requests an operation has added. *)
Definition added {rt : Runtime} (m m' : machine) : list request :=
  drop (length (sent m)) (sent m').

Definition is_put (r : request) : bool :=
  match r with
  | PutLogEvents _ => true
  | _ => false
  end.

(** ** The append, cut at its [await]

    [enviarLogCloudWatch] runs up to [await ...promise()] when it is called:
    it prints, builds [params] from the token of that moment and hands the
    request to the client. The store answers later, and the rest of the
    function runs later still; other calls may have started in between. *)

Section Phases.
Context {rt : Runtime}.
#[local] Existing Instance js_ret.
#[local] Existing Instance js_bind.

(** The request is handed to the client; the store has not seen it yet. *)
Definition hand_over (r : request) : js unit :=
  fun m =>
    ({| sequenceToken := sequenceToken m;
        console := console m;
        sent := sent m ++ [r];
        cloud := cloud m |}, inr tt).

(** The call, up to the [await]. *)
Definition enviar_start (log : value) : js PutLogEventsParams :=
  now ← new_Date_toISOString;
  console_log ("Enviando log " +:+ now);;
  m ← get;
  let params := params log m in
  hand_over (PutLogEvents params);;
  ret params.

(** The store answers a request that was handed over. *)
Definition store_answers (p : PutLogEventsParams) : js PutLogEventsResponse :=
  fun m =>
    let (w', answer) := putLogEvents p (cloud m) in
    ({| sequenceToken := sequenceToken m;
        console := console m;
        sent := sent m;
        cloud := w' |}, answer).

(** The rest of the function, run with the answer: the body of the [try]
    after the [await], or the [catch]. *)
Definition enviar_resume (answer : exn + PutLogEventsResponse) : js unit :=
  match answer with
  | inr response =>
      set_sequenceToken (of_optional (nextSequenceToken response));;
      now ← new_Date_toISOString;
      console_log ("Log enviado com sucesso " +:+ now)
  | inl err => console_error "Erro ao enviar log:" err
  end.

End Phases.


(** ** The append operation *)

Section Append.
Context {rt : Runtime}.
Implicit Types (m : machine) (log : value).

Lemma enviarLogCloudWatch_resolved log m w' response :
  putLogEvents (params log m) (cloud m) = (w', inr response) ->
  enviarLogCloudWatch log m =
    ({| sequenceToken := of_optional (nextSequenceToken response);
        console := console m ++
          [ Console_log ("Enviando log " +:+ Date_toISOString (cloud m));
            Console_log ("Log enviado com sucesso " +:+ Date_toISOString w') ];
        sent := sent m ++ [PutLogEvents (params log m)];
        cloud := w' |}, inr tt).
Proof.
  intros Hput.
  unfold enviarLogCloudWatch, mbind, js_bind, bind, try_catch, await,
    new_Date_toISOString, console_log, print, get, set_sequenceToken.
  simpl. unfold params in *. simpl in *. rewrite Hput. simpl.
  by rewrite <- app_assoc.
Qed.

Lemma enviarLogCloudWatch_rejected log m w' err :
  putLogEvents (params log m) (cloud m) = (w', inl err) ->
  enviarLogCloudWatch log m =
    ({| sequenceToken := sequenceToken m;
        console := console m ++
          [ Console_log ("Enviando log " +:+ Date_toISOString (cloud m));
            Console_error "Erro ao enviar log:" err ];
        sent := sent m ++ [PutLogEvents (params log m)];
        cloud := w' |}, inr tt).
Proof.
  intros Hput.
  unfold enviarLogCloudWatch, mbind, js_bind, bind, try_catch, await,
    new_Date_toISOString, console_log, console_error, print, get,
    set_sequenceToken.
  simpl. unfold params in *. simpl in *. rewrite Hput. simpl.
  by rewrite <- app_assoc.
Qed.

(** Whatever the store answers, the call hands it one request, built from
    the state at the time of the call, and completes normally. *)
Lemma enviarLogCloudWatch_sent log m :
  sent (enviarLogCloudWatch log m).1 = sent m ++ [PutLogEvents (params log m)]
  /\ (enviarLogCloudWatch log m).2 = inr tt.
Proof.
  destruct (putLogEvents (params log m) (cloud m)) as [w' [err|response]] eqn:Hput.
  - by rewrite (enviarLogCloudWatch_rejected _ _ _ _ Hput).
  - by rewrite (enviarLogCloudWatch_resolved _ _ _ _ Hput).
Qed.

Lemma emitted_enviarLogCloudWatch log m :
  emitted (enviarLogCloudWatch log m).1 = emitted m ++ [log].
Proof.
  unfold emitted. rewrite (proj1 (enviarLogCloudWatch_sent log m)).
  rewrite fmap_app, concat_app. reflexivity.
Qed.

(** C5. An append the store accepts leaves, as the in-memory token, the
    next-sequence-token the store returned for it. *)
Theorem accepted_append_stores_next_token log m w' response :
  putLogEvents (params log m) (cloud m) = (w', inr response) ->
  sequenceToken (enviarLogCloudWatch log m).1
    = of_optional (nextSequenceToken response).
Proof.
  intros Hput. by rewrite (enviarLogCloudWatch_resolved _ _ _ _ Hput).
Qed.

(** C1, as amended. When the store reports a sequence-token mismatch the
    in-memory token keeps the value it had (it is not reset to [null]) and
    the append is not retried: the call hands the store that one request
    and leaves the store as the rejected request left it. *)
Theorem token_mismatch_keeps_token_and_does_not_retry log m w' msg :
  putLogEvents (params log m) (cloud m)
    = (w', inl (AWSError "InvalidSequenceTokenException" msg)) ->
  sequenceToken (enviarLogCloudWatch log m).1 = sequenceToken m
  /\ sent (enviarLogCloudWatch log m).1 = sent m ++ [PutLogEvents (params log m)]
  /\ cloud (enviarLogCloudWatch log m).1 = w'.
Proof.
  intros Hput. by rewrite (enviarLogCloudWatch_rejected _ _ _ _ Hput).
Qed.

(** C2. When the store rejects the submitted token as stale: the call
    completes normally (nothing is thrown to the caller); the in-memory
    token is unchanged; the rejected request is the only one made, so
    whatever the store keeps unchanged on a rejected append (the events it
    has delivered) is unchanged by the call; and the next append call
    submits the same token again. *)
Theorem stale_token_rejection_is_swallowed log m w' msg :
  putLogEvents (params log m) (cloud m)
    = (w', inl (AWSError "InvalidSequenceTokenException" msg)) ->
  let m' := (enviarLogCloudWatch log m).1 in
  (enviarLogCloudWatch log m).2 = inr tt
  /\ sequenceToken m' = sequenceToken m
  /\ sent m' = sent m ++ [PutLogEvents (params log m)]
  /\ (forall (A : Type) (delivered : world -> A),
        (forall p w w1 err, putLogEvents p w = (w1, inl err) ->
                            delivered w1 = delivered w) ->
        delivered (cloud m') = delivered (cloud m))
  /\ (forall log2,
        sent (enviarLogCloudWatch log2 m').1
          = sent m' ++ [PutLogEvents (params log2 m')]
        /\ p_sequenceToken (params log2 m') = sequenceToken m).
Proof.
  intros Hput m'. subst m'.
  rewrite (enviarLogCloudWatch_rejected _ _ _ _ Hput). simpl.
  repeat split.
  - intros A delivered Hframe. exact (Hframe _ _ _ _ Hput).
  - apply enviarLogCloudWatch_sent.
Qed.

(** C6. The request of an append carries exactly one event; when the
    in-memory token is [null] it presents no sequence token; and then, on
    a store that accepts a token-less append to the configured stream (the
    stream is brand new), the append is accepted and the token the store
    returned is the one stored. *)
Theorem append_request_single_event_and_first_token log m :
  sent (enviarLogCloudWatch log m).1 = sent m ++ [PutLogEvents (params log m)]
  /\ logEvents (params log m)
       = [ {| message := JSON_stringify log; timestamp := Date_now (cloud m) |} ]
  /\ (sequenceToken m = VNull ->
      presented_token (params log m) = None
      /\ (accepts_first_append (cloud m) ->
          exists w' response,
            putLogEvents (params log m) (cloud m) = (w', inr response)
            /\ sequenceToken (enviarLogCloudWatch log m).1
                 = of_optional (nextSequenceToken response)
            /\ (enviarLogCloudWatch log m).2 = inr tt)).
Proof.
  split; [apply enviarLogCloudWatch_sent|].
  split; [reflexivity|].
  intros Hnull.
  assert (Hnone : presented_token (params log m) = None)
    by (unfold presented_token, params; simpl; by rewrite Hnull).
  split; [exact Hnone|].
  intros Hfresh.
  destruct (Hfresh (params log m) eq_refl eq_refl Hnone) as (w' & response & Hput).
  exists w', response. split; [exact Hput|].
  by rewrite (enviarLogCloudWatch_resolved _ _ _ _ Hput).
Qed.

End Append.

(** ** Event construction *)

Section Events.
Context {rt : Runtime}.
Implicit Types (m : machine) (message req extra error : value).

Lemma field_gerarLog_level level message rota extra :
  field "level" (gerarLog level message rota extra)
    = Some (merged_field extra "level" level).
Proof.
  unfold gerarLog, merged_field, field. rewrite lookup_union.
  by destruct (own_props extra !! "level").
Qed.

Lemma field_gerarLog_message level message rota extra :
  field "message" (gerarLog level message rota extra)
    = Some (merged_field extra "message" message).
Proof.
  unfold gerarLog, merged_field, field. rewrite lookup_union.
  by destruct (own_props extra !! "message").
Qed.

Lemma field_gerarLog_route level message rota extra :
  field "route" (gerarLog level message rota extra)
    = Some (merged_field extra "route" rota).
Proof.
  unfold gerarLog, merged_field, field. rewrite lookup_union.
  by destruct (own_props extra !! "route").
Qed.

(** [logInfo] reads the route first and then appends the event. *)
Lemma logInfo_unfold message req extra_arg m :
  logInfo message req extra_arg m =
    match member req "originalUrl" with
    | inl err => (m, inl err)
    | inr url =>
        enviarLogCloudWatch
          (gerarLog (VStr "info") message url (default_param extra_arg (VObj ∅))) m
    end.
Proof.
  unfold logInfo, mbind, js_bind, bind, eval.
  by destruct (member req "originalUrl").
Qed.

(** [logError] appends an event that agrees with the one [gerarLog] built
    on every field but [error]. *)
Lemma logError_unfold message req error_arg extra_arg m :
  exists log,
    logError message req error_arg extra_arg m = enviarLogCloudWatch log m
    /\ forall k, k <> "error" ->
         field k log =
           field k (gerarLog (VStr "error") message
                      (if strict_ne_null req
                       then optional_member req "originalUrl" else VStr "")
                      (default_param extra_arg (VObj ∅))).
Proof.
  unfold logError.
  destruct (truthy (default_param error_arg (VObj ∅))).
  - eexists. split; [reflexivity|].
    intros k Hk. unfold gerarLog, set_property, field.
    by rewrite lookup_insert_ne.
  - eexists. split; [reflexivity|]. done.
Qed.

(** C3, as amended. Each of the reserved fields [level], [message] and
    [route] of the emitted event holds the value the call itself
    determines (the level constant, the message argument, the extracted
    route) when the extra fields have no property of that name, and the
    value of the extra property of that name when they have one: the
    merged extra fields go over the reserved ones. *)
Theorem reserved_fields_after_merge message req error_arg extra_arg m :
  let extra := default_param extra_arg (VObj ∅) in
  (forall url, member req "originalUrl" = inr url ->
     exists log,
       emitted (logInfo message req extra_arg m).1 = emitted m ++ [log]
       /\ field "level" log = Some (merged_field extra "level" (VStr "info"))
       /\ field "message" log = Some (merged_field extra "message" message)
       /\ field "route" log = Some (merged_field extra "route" url))
  /\ (exists log,
       emitted (logError message req error_arg extra_arg m).1 = emitted m ++ [log]
       /\ field "level" log = Some (merged_field extra "level" (VStr "error"))
       /\ field "message" log = Some (merged_field extra "message" message)
       /\ field "route" log =
            Some (merged_field extra "route"
                    (if strict_ne_null req
                     then optional_member req "originalUrl" else VStr ""))).
Proof.
  intros extra. split.
  - intros url Hurl. rewrite logInfo_unfold, Hurl.
    eexists. split; [apply emitted_enviarLogCloudWatch|].
    split; [apply field_gerarLog_level|].
    split; [apply field_gerarLog_message|apply field_gerarLog_route].
  - destruct (logError_unfold message req error_arg extra_arg m)
      as (log & -> & Hfields).
    exists log. split; [apply emitted_enviarLogCloudWatch|].
    rewrite !Hfields by done.
    split; [apply field_gerarLog_level|].
    split; [apply field_gerarLog_message|apply field_gerarLog_route].
Qed.

(** C7, at the failing input. With a [null] request context (and likewise
    with an absent one) [logInfo] throws the [TypeError] of the property
    read: no event is built and nothing is handed to the store. *)
Theorem logInfo_null_context_throws message extra_arg m :
  logInfo message VNull extra_arg m
    = (m, inl (TypeError "Cannot read properties of null (reading 'originalUrl')"))
  /\ logInfo message VUndefined extra_arg m
    = (m, inl (TypeError
                 "Cannot read properties of undefined (reading 'originalUrl')")).
Proof. by rewrite !logInfo_unfold. Qed.

(** C8, as amended. With a [null] request context, and extra fields that
    have no property named [route], [logError] does not fail on the
    context: it reads nothing of it and is the append of one well-formed
    event, whose [route] is the empty string, whose [level] is ["error"] and
    whose [message] is the message of the call (level and message unless the
    extra fields have a property of that name). *)
Theorem logError_null_context_empty_route message error_arg extra_arg m :
  let extra := default_param extra_arg (VObj ∅) in
  own_props extra !! "route" = None ->
  exists log,
    logError message VNull error_arg extra_arg m = enviarLogCloudWatch log m
    /\ emitted (logError message VNull error_arg extra_arg m).1 = emitted m ++ [log]
    /\ field "route" log = Some (VStr "")
    /\ field "level" log = Some (merged_field extra "level" (VStr "error"))
    /\ field "message" log = Some (merged_field extra "message" message).
Proof.
  intros extra Hfree.
  destruct (logError_unfold message VNull error_arg extra_arg m)
    as (log & Hlog & Hfields).
  exists log. split; [exact Hlog|]. rewrite Hlog.
  split; [apply emitted_enviarLogCloudWatch|].
  rewrite !Hfields by done.
  rewrite field_gerarLog_route, field_gerarLog_level, field_gerarLog_message.
  unfold merged_field at 1. fold extra. by rewrite Hfree.
Qed.

(** C10, as amended. With an [undefined] request context, and extra fields
    that have no property named [route], [logError] does not throw on the
    context (the read is an optional one) and is the append of one event
    whose [route] is [undefined], not the empty string: the empty route is
    there for a context that is literally [null] only. *)
Theorem logError_undefined_context_undefined_route message error_arg extra_arg m :
  own_props (default_param extra_arg (VObj ∅)) !! "route" = None ->
  exists log,
    logError message VUndefined error_arg extra_arg m = enviarLogCloudWatch log m
    /\ emitted (logError message VUndefined error_arg extra_arg m).1
         = emitted m ++ [log]
    /\ field "route" log = Some VUndefined
    /\ field "route" log <> Some (VStr "").
Proof.
  intros Hfree.
  destruct (logError_unfold message VUndefined error_arg extra_arg m)
    as (log & Hlog & Hfields).
  exists log. split; [exact Hlog|]. rewrite Hlog.
  split; [apply emitted_enviarLogCloudWatch|].
  rewrite !Hfields by done. rewrite field_gerarLog_route.
  unfold merged_field. rewrite Hfree. simpl. by split.
Qed.

End Events.

(** ** The in-memory sequence token *)

Section Token.
Context {rt : Runtime}.
Implicit Types (m : machine) (op : operation).







End Token.

(** ** Provisioning *)

Section Provisioning.
Context {rt : Runtime}.
Implicit Types (m : machine).

(** When the group is listed and the store lists at least one stream under
    the prefix, no stream is created and the token of the first listed
    stream is taken, whatever the name of that stream. *)
Lemma ensureCloudWatchSetup_takes_first_listed m w1 groups g w2 first rest :
  describeLogGroups LOG_GROUP_NAME (cloud m) = (w1, inr groups) ->
  find (fun g => bool_decide (Some (logGroupName g) = LOG_GROUP_NAME)) groups
    = Some g ->
  describeLogStreams LOG_GROUP_NAME LOG_STREAM_NAME w1
    = (w2, inr (first :: rest)) ->
  ensureCloudWatchSetup m =
    ({| sequenceToken := of_optional (uploadSequenceToken first);
        console := console m;
        sent := sent m ++ [ DescribeLogGroups LOG_GROUP_NAME;
                            DescribeLogStreams LOG_GROUP_NAME LOG_STREAM_NAME ];
        cloud := w2 |}, inr tt).
Proof.
  intros Hgroups Hfind Hstreams.
  unfold ensureCloudWatchSetup, try_catch, mbind, js_bind, bind, await, ret,
    set_sequenceToken.
  simpl. rewrite Hgroups. simpl. rewrite Hfind. simpl. rewrite Hstreams. simpl.
  by rewrite <- app_assoc.
Qed.

End Provisioning.

(** ** The component on the reference store *)

#[local] Existing Instance Scenario.rt0.

Lemma put_rejected_same_store p (w w1 : RefStore.store) err :
  RefStore.put p w = (w1, inl err) -> w1 = w.
Proof.
  unfold RefStore.put, RefStore.rejected.
  destruct (p_logGroupName p), (p_logStreamName p); try congruence.
  destruct (find _ _); try congruence.
  destruct (bool_decide _); congruence.
Qed.

Lemma provisioned_store : cloud Scenario.m_provisioned = Scenario.w_new.
Proof. reflexivity. Qed.

Lemma new_stream_accepts_first_append : accepts_first_append Scenario.w_new.
Proof.
  intros q Hgroup Hstream Htoken.
  change (p_logGroupName q = Some "fatec-logs") in Hgroup.
  change (p_logStreamName q = Some "api") in Hstream.
  simpl. unfold RefStore.put. rewrite Hgroup, Hstream. simpl.
  rewrite Htoken. simpl. eauto.
Qed.

(** C4, at the failing input. The group holds a stream ["api-dev"] and no
    stream with the configured name ["api"]. Provisioning lists the streams
    under the prefix, finds the list non-empty, creates nothing and takes
    the token of ["api-dev"]; the configured stream still does not exist,
    and the next append is rejected for that. *)
Theorem provisioning_adopts_prefix_sibling :
  let m := (ensureCloudWatchSetup (initial Scenario.w_sibling)).1 in
  find (RefStore.is_stream "fatec-logs" "api") (RefStore.streams Scenario.w_sibling)
    = None
  /\ sent m = [ DescribeLogGroups (Some "fatec-logs");
                DescribeLogStreams (Some "fatec-logs") (Some "api") ]
  /\ sequenceToken m = VStr "tok-1"
  /\ find (RefStore.is_stream "fatec-logs" "api") (RefStore.streams (cloud m))
       = None
  /\ putLogEvents (params Scenario.a_log m) (cloud m)
       = (cloud m, inl (AWSError "ResourceNotFoundException" "request rejected")).
Proof. vm_compute. repeat split. Qed.

(** The module presents the token the store expects; the store answers with
    the next one. *)
Lemma accepted_append_stores_next_token_witness :
  sequenceToken (enviarLogCloudWatch Scenario.a_log Scenario.m_fresh).1 = VStr "tok-2".
Proof.
  apply (accepted_append_stores_next_token Scenario.a_log Scenario.m_fresh
           (enviarLogCloudWatch Scenario.a_log Scenario.m_fresh).1.(cloud)
           {| nextSequenceToken := Some "tok-2" |}).
  vm_compute. reflexivity.
Defined.

(** The store expects ["tok-1"], the module presents ["tok-0"]. *)
Lemma token_mismatch_keeps_token_witness :
  sequenceToken (enviarLogCloudWatch Scenario.a_log Scenario.m_stale).1 = VStr "tok-0"
  /\ sent (enviarLogCloudWatch Scenario.a_log Scenario.m_stale).1
       = [PutLogEvents (params Scenario.a_log Scenario.m_stale)]
  /\ cloud (enviarLogCloudWatch Scenario.a_log Scenario.m_stale).1 = Scenario.w_one.
Proof.
  apply (token_mismatch_keeps_token_and_does_not_retry
           Scenario.a_log Scenario.m_stale Scenario.w_one "request rejected").
  vm_compute. reflexivity.
Defined.

(** C1 fails on the code: the store reports the mismatch, the token is not
    reset to [null], and the one rejected request is all the store gets. *)
Lemma token_mismatch_no_reset_no_retry :
  putLogEvents (params Scenario.a_log Scenario.m_stale) (cloud Scenario.m_stale)
    = (Scenario.w_one,
       inl (AWSError "InvalidSequenceTokenException" "request rejected"))
  /\ sequenceToken (enviarLogCloudWatch Scenario.a_log Scenario.m_stale).1 <> VNull
  /\ sent (enviarLogCloudWatch Scenario.a_log Scenario.m_stale).1
       = [PutLogEvents (params Scenario.a_log Scenario.m_stale)].
Proof. vm_compute. repeat split. discriminate. Qed.

(** The rejected append leaves the stream with the one event it had. *)
Lemma stale_token_rejection_witness :
  (enviarLogCloudWatch Scenario.a_log Scenario.m_stale).2 = inr tt
  /\ sequenceToken (enviarLogCloudWatch Scenario.a_log Scenario.m_stale).1
       = VStr "tok-0"
  /\ RefStore.events_of "fatec-logs" "api"
       (cloud (enviarLogCloudWatch Scenario.a_log Scenario.m_stale).1)
       = [Scenario.an_event]
  /\ p_sequenceToken
       (params Scenario.a_log (enviarLogCloudWatch Scenario.a_log Scenario.m_stale).1)
       = VStr "tok-0".
Proof.
  assert (Hput :
    putLogEvents (params Scenario.a_log Scenario.m_stale) (cloud Scenario.m_stale)
      = (Scenario.w_one,
         inl (AWSError "InvalidSequenceTokenException" "request rejected")))
    by (vm_compute; reflexivity).
  destruct (stale_token_rejection_is_swallowed
              Scenario.a_log Scenario.m_stale Scenario.w_one "request rejected" Hput)
    as (Hdone & Htoken & _ & Hframe & Hnext).
  split; [exact Hdone|]. split; [exact Htoken|].
  split.
  - rewrite (Hframe _ (RefStore.events_of "fatec-logs" "api")); [reflexivity|].
    intros p w w1 err Hrej. by rewrite (put_rejected_same_store p w w1 err Hrej).
  - exact (proj2 (Hnext Scenario.a_log)).
Defined.

(** The first append after provisioning against the empty store. *)
Lemma first_append_witness :
  sequenceToken Scenario.m_provisioned = VNull
  /\ presented_token (params Scenario.a_log Scenario.m_provisioned) = None
  /\ exists w' response,
       putLogEvents (params Scenario.a_log Scenario.m_provisioned)
                    (cloud Scenario.m_provisioned) = (w', inr response)
       /\ sequenceToken (enviarLogCloudWatch Scenario.a_log Scenario.m_provisioned).1
            = of_optional (nextSequenceToken response)
       /\ (enviarLogCloudWatch Scenario.a_log Scenario.m_provisioned).2 = inr tt.
Proof.
  destruct (append_request_single_event_and_first_token
              Scenario.a_log Scenario.m_provisioned) as (_ & _ & Hfirst).
  destruct (Hfirst eq_refl) as [Hnone Haccepted].
  split; [reflexivity|]. split; [exact Hnone|].
  apply Haccepted. rewrite provisioned_store.
  exact new_stream_accepts_first_append.
Defined.

(** Extra fields that leave the reserved names alone. *)
Lemma reserved_fields_witness :
  exists log,
    emitted (logInfo (VStr "Produto criado") Scenario.a_request
               (VObj {[ "id" := VNum 7 ]}) Scenario.m_new).1 = [log]
    /\ field "level" log = Some (VStr "info")
    /\ field "message" log = Some (VStr "Produto criado")
    /\ field "route" log = Some (VStr "/produtos").
Proof.
  destruct (reserved_fields_after_merge (VStr "Produto criado") Scenario.a_request
              VUndefined (VObj {[ "id" := VNum 7 ]}) Scenario.m_new) as [Hinfo _].
  destruct (Hinfo (VStr "/produtos") eq_refl) as (log & Hlog & Hlevel & Hmsg & Hroute).
  exists log. split; [exact Hlog|]. split; [exact Hlevel|]. split; [exact Hmsg|].
  exact Hroute.
Defined.

(** C3 fails on the code: an extra field named [level] replaces the level
    of the call. *)
Lemma reserved_level_overwritten :
  let log := gerarLog (VStr "info") (VStr "Produto criado") (VStr "/produtos")
               (VObj {[ "level" := VStr "debug" ]}) in
  emitted (logInfo (VStr "Produto criado") Scenario.a_request
             (VObj {[ "level" := VStr "debug" ]}) Scenario.m_new).1 = [log]
  /\ field "level" log = Some (VStr "debug")
  /\ field "level" log <> Some (VStr "info").
Proof. vm_compute. repeat split. discriminate. Qed.

(** An error log outside a request: a [null] context, an error, and extra
    fields that leave the route alone. *)
Lemma logError_null_context_witness :
  exists log,
    logError (VStr "Erro ao logar mongodb") VNull (VStr "timeout")
      (VObj {[ "attempt" := VNum 2 ]}) Scenario.m_new
      = enviarLogCloudWatch log Scenario.m_new
    /\ emitted (logError (VStr "Erro ao logar mongodb") VNull (VStr "timeout")
                  (VObj {[ "attempt" := VNum 2 ]}) Scenario.m_new).1 = [log]
    /\ field "route" log = Some (VStr "")
    /\ field "level" log = Some (VStr "error")
    /\ field "message" log = Some (VStr "Erro ao logar mongodb").
Proof.
  refine (logError_null_context_empty_route (VStr "Erro ao logar mongodb")
            (VStr "timeout") (VObj {[ "attempt" := VNum 2 ]}) Scenario.m_new _).
  reflexivity.
Defined.

(** C8 fails on the code: with a [null] context and an extra field named
    [route], the route of the event is the extra field, not the empty
    string. *)
Lemma logError_null_context_route_overwritten :
  let log := set_property
               (gerarLog (VStr "error") (VStr "Erro") (VStr "")
                  (VObj {[ "route" := VStr "/x" ]}))
               "error" (VObj {[ "error" := VObj ∅ ]}) in
  emitted (logError (VStr "Erro") VNull VUndefined
             (VObj {[ "route" := VStr "/x" ]}) Scenario.m_new).1 = [log]
  /\ field "route" log = Some (VStr "/x")
  /\ field "route" log <> Some (VStr "").
Proof. vm_compute. repeat split. discriminate. Qed.

Lemma logError_undefined_context_witness :
  exists log,
    logError (VStr "Erro") VUndefined (VStr "timeout")
      (VObj {[ "attempt" := VNum 2 ]}) Scenario.m_new
      = enviarLogCloudWatch log Scenario.m_new
    /\ emitted (logError (VStr "Erro") VUndefined (VStr "timeout")
                  (VObj {[ "attempt" := VNum 2 ]}) Scenario.m_new).1 = [log]
    /\ field "route" log = Some VUndefined.
Proof.
  assert (Hfree :
    own_props (default_param (VObj {[ "attempt" := VNum 2 ]}) (VObj ∅)) !! "route"
      = None) by reflexivity.
  destruct (logError_undefined_context_undefined_route (VStr "Erro")
              (VStr "timeout") (VObj {[ "attempt" := VNum 2 ]}) Scenario.m_new
              Hfree)
    as (log & Hcall & Hlog & Hroute & _).
  exists log. split; [exact Hcall|]. split; [exact Hlog|exact Hroute].
Defined.

(** C10 fails on the code: with an [undefined] context and an extra field
    named [route], the route of the event is the extra field, not
    [undefined]. *)
Lemma logError_undefined_context_route_overwritten :
  let log := set_property
               (gerarLog (VStr "error") (VStr "Erro") VUndefined
                  (VObj {[ "route" := VStr "/x" ]}))
               "error" (VObj {[ "error" := VObj ∅ ]}) in
  emitted (logError (VStr "Erro") VUndefined VUndefined
             (VObj {[ "route" := VStr "/x" ]}) Scenario.m_new).1 = [log]
  /\ field "route" log = Some (VStr "/x")
  /\ field "route" log <> Some VUndefined.
Proof. vm_compute. repeat split. discriminate. Qed.


(** ** Further properties of the logger *)

Section Guarantees.
Context {rt : Runtime}.
Implicit Types (m : machine) (message req extra error log : value).

Lemma added_app m m' reqs : sent m' = sent m ++ reqs -> added m m' = reqs.
Proof. intros Hsent. unfold added. rewrite Hsent. apply drop_app_length. Qed.

Ltac shape :=
  simpl; eexists _, _;
  split; [try rewrite <- !app_assoc; reflexivity|];
  split; [first [reflexivity | symmetry; apply app_nil_r]|];
  split; [reflexivity|];
  split; [simpl; lia|];
  split; [reflexivity|];
  first [left; reflexivity | right; eexists; reflexivity].

(** The shape of every provisioning run: what it has sent, printed and
    returned, whatever the store answers. *)
Lemma ensureCloudWatchSetup_cases m :
  exists reqs lines,
    sent (ensureCloudWatchSetup m).1 = sent m ++ reqs
    /\ console (ensureCloudWatchSetup m).1 = console m ++ lines
    /\ (ensureCloudWatchSetup m).2 = inr tt
    /\ length reqs <= 4
    /\ forallb (fun r => negb (is_put r)) reqs = true
    /\ (lines = [] \/ exists err,
          lines = [Console_error "Erro ao configurar CloudWatch:" err]).
Proof.
  unfold ensureCloudWatchSetup, try_catch, mbind, js_bind, bind, await, ret,
    console_error, print, set_sequenceToken.
  simpl.
  destruct (describeLogGroups LOG_GROUP_NAME (cloud m)) as [w1 [e1|groups]];
    [shape|simpl].
  destruct (find _ groups); simpl.
  - destruct (describeLogStreams LOG_GROUP_NAME LOG_STREAM_NAME w1)
      as [w3 [e3|[|first rest]]]; [shape| |shape].
    simpl.
    destruct (createLogStream LOG_GROUP_NAME LOG_STREAM_NAME w3) as [w4 [e4|[]]];
      shape.
  - destruct (createLogGroup LOG_GROUP_NAME w1) as [w2 [e2|[]]]; [shape|simpl].
    destruct (describeLogStreams LOG_GROUP_NAME LOG_STREAM_NAME w2)
      as [w3 [e3|[|first rest]]]; [shape| |shape].
    simpl.
    destruct (createLogStream LOG_GROUP_NAME LOG_STREAM_NAME w3) as [w4 [e4|[]]];
      shape.
Qed.

(** Provisioning hands no event to the store. *)
Lemma ensureCloudWatchSetup_emitted m :
  emitted (ensureCloudWatchSetup m).1 = emitted m.
Proof.
  destruct (ensureCloudWatchSetup_cases m)
    as (reqs & lines & Hsent & _ & _ & _ & Hput & _).
  unfold emitted. rewrite Hsent, fmap_app, concat_app.
  assert (Hnone : concat (logged <$> reqs) = []).
  { clear -Hput. induction reqs as [|r reqs IH]; [done|].
    cbn [forallb] in Hput. apply andb_prop in Hput as [Hr Hrest].
    rewrite fmap_cons. cbn [concat]. rewrite (IH Hrest).
    by destruct r. }
  rewrite Hnone. apply app_nil_r.
Qed.

(** X1. Provisioning never throws, whatever the store answers: a rejected
    request is caught. It makes at most four requests, none of them an
    append, so the events handed to the store are the ones handed before;
    and it prints nothing, or the one line of the error it caught. *)
Theorem provisioning_never_throws_nor_appends m :
  (ensureCloudWatchSetup m).2 = inr tt
  /\ emitted (ensureCloudWatchSetup m).1 = emitted m
  /\ length (added m (ensureCloudWatchSetup m).1) <= 4
  /\ forallb (fun r => negb (is_put r)) (added m (ensureCloudWatchSetup m).1) = true
  /\ (console (ensureCloudWatchSetup m).1 = console m
      \/ exists err,
           console (ensureCloudWatchSetup m).1
             = console m ++ [Console_error "Erro ao configurar CloudWatch:" err]).
Proof.
  destruct (ensureCloudWatchSetup_cases m)
    as (reqs & lines & Hsent & Hconsole & Hdone & Hlen & Hput & Hlines).
  rewrite (added_app _ _ _ Hsent).
  split; [exact Hdone|]. split; [apply ensureCloudWatchSetup_emitted|].
  - split; [exact Hlen|]. split; [exact Hput|].
    rewrite Hconsole.
    destruct Hlines as [-> | [err ->]]; [left; apply app_nil_r|right; eauto].
Qed.

(** X2. When the store lists the groups, the group is created exactly when
    none of the listed groups has the configured name: the lookup is by the
    exact name, not by the prefix the listing was asked for. *)
Theorem group_created_iff_not_listed m w1 groups :
  describeLogGroups LOG_GROUP_NAME (cloud m) = (w1, inr groups) ->
  CreateLogGroup LOG_GROUP_NAME ∈ added m (ensureCloudWatchSetup m).1
  <-> forall g, g ∈ groups -> Some (logGroupName g) <> LOG_GROUP_NAME.
Proof.
  intros Hgroups.
  assert (Hadded : forall reqs,
    sent (ensureCloudWatchSetup m).1 = sent m ++ reqs ->
    added m (ensureCloudWatchSetup m).1 = reqs) by apply added_app.
  revert Hadded.
  unfold ensureCloudWatchSetup, try_catch, mbind, js_bind, bind, await, ret,
    console_error, print, set_sequenceToken.
  simpl. rewrite Hgroups. simpl.
  destruct (find _ groups) as [g|] eqn:Hfind; simpl.
  - apply find_some in Hfind as [Hin Hname]. apply bool_decide_eq_true in Hname.
    intros Hadded. split.
    + intros Hmem. exfalso. apply list_elem_of_In in Hmem. revert Hmem.
      destruct (describeLogStreams LOG_GROUP_NAME LOG_STREAM_NAME w1)
        as [w3 [e3|[|first rest]]]; simpl in *.
      * rewrite (Hadded [_; _]) by (by rewrite <- app_assoc). simpl; intuition discriminate.
      * destruct (createLogStream LOG_GROUP_NAME LOG_STREAM_NAME w3)
          as [w4 [e4|[]]]; simpl in *;
          rewrite (Hadded [_; _; _]) by (by rewrite <- !app_assoc); simpl; intuition discriminate.
      * rewrite (Hadded [_; _]) by (by rewrite <- app_assoc). simpl; intuition discriminate.
    + intros Hnone. exfalso. apply (Hnone g); [|exact Hname].
      by apply list_elem_of_In.
  - intros Hadded. split.
    + intros _ g Hin Hname.
      apply list_elem_of_In in Hin.
      apply (find_none _ _ Hfind) in Hin. apply bool_decide_eq_false in Hin.
      by apply Hin.
    + intros _.
      destruct (createLogGroup LOG_GROUP_NAME w1) as [w2 [e2|[]]]; simpl in *.
      { rewrite (Hadded [_; _]) by (by rewrite <- app_assoc). apply list_elem_of_In; simpl; auto. }
      destruct (describeLogStreams LOG_GROUP_NAME LOG_STREAM_NAME w2)
        as [w3 [e3|[|first rest]]]; simpl in *.
      * rewrite (Hadded [_; _; _]) by (by rewrite <- !app_assoc). apply list_elem_of_In; simpl; auto.
      * destruct (createLogStream LOG_GROUP_NAME LOG_STREAM_NAME w3)
          as [w4 [e4|[]]]; simpl in *;
          rewrite (Hadded [_; _; _; _]) by (by rewrite <- !app_assoc); apply list_elem_of_In; simpl; auto.
      * rewrite (Hadded [_; _; _]) by (by rewrite <- !app_assoc). apply list_elem_of_In; simpl; auto.
Qed.

(** X5. The [error] field of the event of [logError]. A truthy error
    argument is nested as [{error}] and replaces an extra field named
    [error]; an absent error argument takes the default [{}], which is
    truthy, so the event carries [error: {error: {}}]; with a falsy error
    argument ([null], [false], [0], the empty string) nothing is nested and
    the field is the one of the extra fields, if any. *)
Theorem logError_error_field message req error_arg extra_arg m :
  exists log,
    emitted (logError message req error_arg extra_arg m).1 = emitted m ++ [log]
    /\ field "error" log =
         (let error := default_param error_arg (VObj ∅) in
          if truthy error
          then Some (VObj {[ "error" := error ]})
          else own_props (default_param extra_arg (VObj ∅)) !! "error")
    /\ (error_arg = VUndefined ->
        field "error" log = Some (VObj {[ "error" := VObj ∅ ]})).
Proof.
  unfold logError.
  destruct (truthy (default_param error_arg (VObj ∅))) eqn:Htruthy.
  - eexists. split; [apply emitted_enviarLogCloudWatch|].
    unfold gerarLog, set_property, field. rewrite lookup_insert_eq.
    split; [reflexivity|]. by intros ->.
  - eexists. split; [apply emitted_enviarLogCloudWatch|].
    split.
    + unfold gerarLog, field. rewrite lookup_union.
      by destruct (own_props _ !! "error").
    + intros ->. discriminate.
Qed.

(** X6. The fields of a built event are the three reserved ones and the
    own properties of the extra fields, no more: every extra property is in
    the event with its value, and a name is absent from the event exactly
    when it is not reserved and not an extra property. *)
Theorem gerarLog_fields level message rota extra k :
  (forall v, own_props extra !! k = Some v ->
             field k (gerarLog level message rota extra) = Some v)
  /\ (field k (gerarLog level message rota extra) = None
      <-> k <> "level" /\ k <> "message" /\ k <> "route"
          /\ own_props extra !! k = None).
Proof.
  unfold gerarLog, field. rewrite lookup_union. split.
  - intros v ->. by destruct (_ !! k).
  - destruct (own_props extra !! k) as [v|] eqn:Hextra.
    + split; [|by intros (_ & _ & _ & ?)].
      intros [? _]%union_None. discriminate.
    + destruct (decide (k = "level")) as [->|Hl];
        [split; [discriminate|tauto]|].
      destruct (decide (k = "message")) as [->|Hm];
        [split; [discriminate|tauto]|].
      destruct (decide (k = "route")) as [->|Hr];
        [split; [discriminate|tauto]|].
      rewrite !lookup_insert_ne, lookup_singleton_ne by done. done.
Qed.

(** X7. Whatever the store answers to each of them, the appends of a run
    hand their events to the store once each and in the order of the
    calls. *)
Theorem appends_emit_in_call_order (logs : list value) m :
  emitted (run_all (Append <$> logs) m) = emitted m ++ logs.
Proof.
  revert m. induction logs as [|log logs IH]; intros m.
  - simpl. by rewrite app_nil_r.
  - rewrite fmap_cons. simpl. rewrite IH, emitted_enviarLogCloudWatch.
    by rewrite <- app_assoc.
Qed.

(** The decimal form of an index starts with a digit. *)
Lemma pretty_N_go_head (x : N) :
  (0 < x)%N ->
  forall s, exists d rest, pretty_N_go x s = String (pretty_N_char d) rest.
Proof.
  induction (N.lt_wf_0 x) as [x _ IH]. intros Hx s.
  rewrite pretty_N_go_step by done.
  destruct (decide (x `div` 10 = 0)%N) as [Hz|Hz].
  - rewrite Hz, pretty_N_go_0. eauto.
  - apply IH; [apply N.div_lt; lia | by apply N.neq_0_lt_0].
Qed.

Lemma pretty_nat_head (i : nat) :
  exists d rest, pretty i = String (pretty_N_char d) rest.
Proof.
  unfold pretty, pretty_nat, pretty, pretty_N.
  case_decide as Hi.
  - exists 0%N, "". reflexivity.
  - apply pretty_N_go_head. lia.
Qed.

Lemma pretty_nat_not_reserved (i : nat) :
  pretty i <> "level" /\ pretty i <> "message" /\ pretty i <> "route".
Proof.
  destruct (pretty_nat_head i) as (d & rest & ->).
  unfold pretty_N_char.
  repeat split; intros [=Hc _]; revert Hc;
    (destruct d as [|p]; [discriminate|]);
    repeat (destruct p as [p|p|]; try discriminate).
Qed.

Lemma index_keys (l : list value) :
  (imap (fun i v => (pretty i, v)) l).*1 = pretty <$> seq 0 (length l).
Proof.
  rewrite fmap_imap. rewrite <- (imap_seq_0 l pretty). by apply imap_ext.
Qed.

(** An array-like value has its elements under their indices and nothing
    else. *)
Lemma index_props_lookup (l : list value) (i : nat) :
  index_props l !! pretty i = l !! i.
Proof.
  unfold index_props. destruct (l !! i) as [x|] eqn:Hi.
  - apply elem_of_list_to_map_1.
    + rewrite index_keys. apply NoDup_fmap_2; [apply _|apply NoDup_seq].
    + by apply (elem_of_lookup_imap_2 (fun i v => (pretty i, v))).
  - apply not_elem_of_list_to_map_1. rewrite index_keys.
    intros (j & Hj%(inj pretty) & Hin)%list_elem_of_fmap. subst j.
    apply elem_of_seq in Hin. apply lookup_ge_None in Hi. lia.
Qed.

Lemma index_props_not_index (l : list value) (k : string) :
  (forall i : nat, k <> pretty i) -> index_props l !! k = None.
Proof.
  intros Hk. unfold index_props. apply not_elem_of_list_to_map_1.
  rewrite index_keys. intros (j & -> & _)%list_elem_of_fmap. by apply (Hk j).
Qed.

Lemma own_props_reserved_non_object extra k :
  (forall props, extra <> VObj props) ->
  k = "level" \/ k = "message" \/ k = "route" ->
  own_props extra !! k = None.
Proof.
  intros Hnot Hk.
  assert (Hidx : forall i : nat, k <> pretty i).
  { intros i ->. destruct (pretty_nat_not_reserved i) as (? & ? & ?).
    by destruct Hk as [?|[?|?]]. }
  destruct extra; simpl; try apply lookup_empty;
    try (by apply index_props_not_index).
  by destruct (Hnot props).
Qed.

(** X8. Extra fields that are a primitive can not touch the reserved
    fields: [null], a boolean and a number have no property to merge, and a
    string merges its code units under their decimal indices, so the level,
    message and route of the event are the ones of the call. *)
Theorem primitive_extra_keeps_reserved_fields level message rota extra :
  (forall props, extra <> VObj props) ->
  (forall elems, extra <> VArr elems) ->
  field "level" (gerarLog level message rota extra) = Some level
  /\ field "message" (gerarLog level message rota extra) = Some message
  /\ field "route" (gerarLog level message rota extra) = Some rota
  /\ forall (s : string) (i : nat),
       extra = VStr s ->
       field (pretty i) (gerarLog level message rota extra) = code_units s !! i.
Proof.
  intros Hobject Harray.
  rewrite field_gerarLog_level, field_gerarLog_message, field_gerarLog_route.
  unfold merged_field.
  rewrite !(own_props_reserved_non_object extra) by auto.
  repeat split.
  intros s i ->. unfold gerarLog, field. rewrite lookup_union. simpl.
  rewrite index_props_lookup.
  destruct (pretty_nat_not_reserved i) as (Hl & Hm & Hr).
  rewrite !lookup_insert_ne, lookup_singleton_ne by done.
  by destruct (code_units s !! i).
Qed.

(** X9. [logInfo] with an array as the extra argument, as the bucket routes
    call it: the event carries every element of the array under its decimal
    index, nothing under an index past the end, and the level, message and
    route of the call. *)
Theorem logInfo_array_extra message req (elems : list value) m url :
  member req "originalUrl" = inr url ->
  exists log,
    emitted (logInfo message req (VArr elems) m).1 = emitted m ++ [log]
    /\ (forall i : nat, field (pretty i) log = elems !! i)
    /\ field "level" log = Some (VStr "info")
    /\ field "message" log = Some message
    /\ field "route" log = Some url.
Proof.
  intros Hurl. rewrite logInfo_unfold, Hurl. simpl.
  eexists. split; [apply emitted_enviarLogCloudWatch|].
  split.
  - intros i. unfold gerarLog, field. rewrite lookup_union. simpl.
    rewrite index_props_lookup.
    destruct (pretty_nat_not_reserved i) as (Hl & Hm & Hr).
    rewrite !lookup_insert_ne, lookup_singleton_ne by done.
    by destruct (elems !! i).
  - rewrite field_gerarLog_level, field_gerarLog_message, field_gerarLog_route.
    unfold merged_field.
    rewrite !(own_props_reserved_non_object (VArr elems)) by (auto || done).
    done.
Qed.

(** A logging operation is an append of some event, or does nothing. *)
Lemma logging_step op m :
  is_logging op = true ->
  (run op m).1 = m
  \/ exists log, (run op m).1 = (enviarLogCloudWatch log m).1.
Proof.
  destruct op as [|log|message req extra|message req error extra]; simpl;
    [discriminate|intros _..].
  - right. by exists log.
  - rewrite logInfo_unfold. destruct (member req "originalUrl"); [by left|].
    right. by eexists.
  - destruct (logError_unfold message req error extra m) as (log & -> & _).
    right. by exists log.
Qed.

(** The call leaves the state with one more line printed and the request
    handed over, and gives the request it built. *)
Lemma enviar_start_eq log m :
  enviar_start log m =
    ({| sequenceToken := sequenceToken m;
        console := console m
                   ++ [Console_log ("Enviando log " +:+ Date_toISOString (cloud m))];
        sent := sent m ++ [PutLogEvents (params log m)];
        cloud := cloud m |}, inr (params log m)).
Proof. reflexivity. Qed.

(** An append that nothing overlaps is its three parts one after the
    other. *)
Lemma enviarLogCloudWatch_phases log m :
  let answered := store_answers (params log m) (enviar_start log m).1 in
  enviarLogCloudWatch log m = enviar_resume answered.2 answered.1.
Proof.
  intros answered. subst answered.
  rewrite enviar_start_eq. unfold store_answers. cbn [fst snd cloud].
  destruct (putLogEvents (params log m) (cloud m)) as [w' [err|response]] eqn:Hput.
  - rewrite (enviarLogCloudWatch_rejected _ _ _ _ Hput).
    unfold enviar_resume, console_error, print. simpl.
    by rewrite <- app_assoc.
  - rewrite (enviarLogCloudWatch_resolved _ _ _ _ Hput).
    unfold enviar_resume, mbind, js_bind, bind, set_sequenceToken,
      new_Date_toISOString, console_log, print. simpl.
    by rewrite <- app_assoc.
Qed.


End Guarantees.

(** ** The logger on the reference store, for any configuration *)

Section OnRefStore.
Variables g n : string.
Abbreviation rt := (deployed g n).
Implicit Types (m : @machine rt) (s : RefStore.stream).

Lemma wire_token_of_optional (o : option string) : wire_token (of_optional o) = o.
Proof. by destruct o. Qed.

Lemma is_stream_append p s :
  RefStore.is_stream g n (RefStore.append p s) = RefStore.is_stream g n s.
Proof. reflexivity. Qed.

Lemma find_update {A} (P : A -> bool) (f : A -> A) (l : list A) :
  (forall x, P (f x) = P x) ->
  find P ((fun x => if P x then f x else x) <$> l) = f <$> find P l.
Proof.
  intros Hf. induction l as [|x l IH]; [done|].
  rewrite fmap_cons. simpl. destruct (P x) eqn:Hx.
  - by rewrite Hf, Hx.
  - by rewrite Hx.
Qed.

(** The answer of the store to an append, by the token presented. *)
Lemma put_answer log m s :
  find (RefStore.is_stream g n) (RefStore.streams (cloud m)) = Some s ->
  putLogEvents (params log m) (cloud m) =
    if bool_decide (wire_token (sequenceToken m) = RefStore.expected s)
    then ({| RefStore.groups := RefStore.groups (cloud m);
             RefStore.streams :=
               (fun s' => if RefStore.is_stream g n s'
                          then RefStore.append (params log m) s' else s')
               <$> RefStore.streams (cloud m);
             RefStore.clock := (RefStore.clock (cloud m) + 1)%Z |},
          inr {| nextSequenceToken :=
                   RefStore.expected (RefStore.append (params log m) s) |})
    else (cloud m, inl (AWSError "InvalidSequenceTokenException" "request rejected")).
Proof.
  intros Hfind. simpl. unfold RefStore.put. simpl.
  change (RefStore.env g n "LOG_GROUP_NAME") with (Some g).
  change (RefStore.env g n "LOG_STREAM_NAME") with (Some n).
  simpl. rewrite Hfind. reflexivity.
Qed.

Lemma append_in_sync log m :
  in_sync g n m ->
  in_sync g n (enviarLogCloudWatch log m).1
  /\ RefStore.events_of g n (cloud (enviarLogCloudWatch log m).1)
     = RefStore.events_of g n (cloud m)
       ++ [ {| message := JSON_stringify log;
               timestamp := Date_now (cloud m) |} ].
Proof.
  intros (s & Hfind & Htoken).
  pose proof (put_answer log m s Hfind) as Hput.
  rewrite bool_decide_eq_true_2 in Hput by done.
  rewrite (@enviarLogCloudWatch_resolved rt _ _ _ _ Hput). simpl.
  split.
  - exists (RefStore.append (params log m) s). simpl.
    rewrite find_update by apply is_stream_append.
    rewrite Hfind. by split.
  - unfold RefStore.events_of. simpl.
    rewrite find_update by apply is_stream_append.
    by rewrite Hfind.
Qed.


(** A run of logging calls from a state in step with the store. *)
Lemma run_in_sync (ops : list operation) m :
  forallb is_logging ops = true ->
  in_sync g n m ->
  in_sync g n (run_all ops m)
  /\ exists logs,
       emitted (run_all ops m) = emitted m ++ logs
       /\ message <$> RefStore.events_of g n (cloud (run_all ops m))
          = (message <$> RefStore.events_of g n (cloud m))
            ++ (JSON_stringify <$> logs).
Proof.
  revert m. induction ops as [|op ops IH]; intros m Hops Hsync.
  - split; [exact Hsync|]. exists []. by rewrite !app_nil_r.
  - cbn [forallb] in Hops. apply andb_prop in Hops as [Hop Hops].
    simpl. destruct (logging_step op m Hop) as [-> | [log ->]].
    + by apply IH.
    + destruct (append_in_sync log m Hsync) as [Hsync' Hevents].
      destruct (IH _ Hops Hsync') as (Hfinal & logs & Hemitted & Hdelivered).
      split; [exact Hfinal|]. exists (log :: logs). split.
      * rewrite Hemitted, emitted_enviarLogCloudWatch. by rewrite <- app_assoc.
      * rewrite Hdelivered, Hevents, fmap_app. simpl. by rewrite <- app_assoc.
Qed.

(** X10. A run of logging calls of which each has completed before the
    next one starts: while the module holds the token the store expects,
    every event of such a run is delivered; the stream grows by exactly the
    events the run emitted, in the order of the calls, and the module is
    left holding the token the store expects next. *)
Theorem in_sync_run_delivers_every_event (ops : list operation) m :
  forallb is_logging ops = true ->
  in_sync g n m ->
  in_sync g n (run_all ops m)
  /\ exists logs,
       emitted (run_all ops m) = emitted m ++ logs
       /\ message <$> RefStore.events_of g n (cloud (run_all ops m))
          = (message <$> RefStore.events_of g n (cloud m))
            ++ (JSON_stringify <$> logs).
Proof.
  intros Hops Hsync.
  destruct (run_in_sync ops m Hops Hsync) as (Hfinal & logs & Hemitted & Hdelivered).
  split; [exact Hfinal|]. exists logs. by split.
Qed.


Lemma prefix_refl (s : string) : String.prefix s s = true.
Proof.
  induction s as [|a s IH]; [done|]. simpl.
  by destruct (Ascii.ascii_dec a a).
Qed.

Lemma eqb_refl_true (s : string) : String.eqb s s = true.
Proof. by apply String.eqb_eq. Qed.

Lemma find_filter_head {A} (P : A -> bool) (l : list A) :
  find P l = head (List.filter P l).
Proof.
  induction l as [|x l IH]; [done|]. simpl. by destruct (P x).
Qed.

(** The group is found among the listed groups exactly when the store has
    it. *)
Lemma group_listed (groups : list string) :
  find (fun x => bool_decide (Some (logGroupName x) = Some g))
       (Build_LogGroup <$> List.filter (RefStore.has_prefix (Some g)) groups)
  = if existsb (String.eqb g) groups then Some (Build_LogGroup g) else None.
Proof.
  induction groups as [|a groups IH]; [done|]. simpl.
  destruct (String.eqb g a) eqn:Ha.
  - apply String.eqb_eq in Ha as <-. rewrite prefix_refl. simpl.
    by rewrite bool_decide_eq_true_2.
  - apply String.eqb_neq in Ha. simpl.
    destruct (String.prefix g a); [|exact IH].
    rewrite fmap_cons. simpl.
    rewrite bool_decide_eq_false_2 by congruence. exact IH.
Qed.

Lemma existsb_snoc (groups : list string) :
  existsb (String.eqb g) (groups ++ [g]) = true.
Proof. rewrite existsb_app. simpl. by rewrite eqb_refl_true, orb_true_r. Qed.

(** Where no stream is listed under the prefix, the configured stream is
    not there. *)
Lemma none_listed_no_stream (l : list RefStore.stream) :
  List.filter (fun s => String.eqb (RefStore.group s) g
                        && String.prefix n (RefStore.name s)) l = [] ->
  existsb (RefStore.is_stream g n) l = false.
Proof.
  induction l as [|s l IH]; [done|]. simpl. unfold RefStore.is_stream at 1.
  destruct (String.eqb (RefStore.group s) g); simpl; [|exact IH].
  destruct (String.eqb (RefStore.name s) n) eqn:Hn; simpl.
  - apply String.eqb_eq in Hn as ->. by rewrite prefix_refl.
  - destruct (String.prefix n (RefStore.name s)); [done|exact IH].
Qed.

(** Provisioning on the reference store, in full: it never fails; it adds
    the group when the store does not have it; it adds the stream when the
    store lists no stream under the prefix, and takes the token of the first
    listed stream otherwise. *)
Lemma ensureCloudWatchSetup_on_store m :
  let w := cloud m in
  let listed := List.filter (fun s => String.eqb (RefStore.group s) g
                                      && String.prefix n (RefStore.name s))
                            (RefStore.streams w) in
  let has_group := existsb (String.eqb g) (RefStore.groups w) in
  ensureCloudWatchSetup m =
    (@Build_machine rt
       match listed with
       | [] => sequenceToken m
       | first :: _ => of_optional (RefStore.expected first)
       end
       (console m)
       (sent m ++ [DescribeLogGroups (Some g)]
          ++ (if has_group then [] else [CreateLogGroup (Some g)])
          ++ [DescribeLogStreams (Some g) (Some n)]
          ++ match listed with
             | [] => [CreateLogStream (Some g) (Some n)]
             | _ => []
             end)
       {| RefStore.groups := if has_group then RefStore.groups w
                             else RefStore.groups w ++ [g];
          RefStore.streams :=
            match listed with
            | [] => RefStore.streams w ++
                    [ {| RefStore.group := g; RefStore.name := n;
                         RefStore.expected := None;
                         RefStore.delivered := [] |} ]
            | _ => RefStore.streams w
            end;
          RefStore.clock :=
            (RefStore.clock w + (if has_group then 0 else 1)
             + match listed with [] => 1 | _ => 0 end)%Z |}, inr tt).
Proof.
  intros w listed has_group. subst w listed has_group.
  destruct m as [token printed requests [groups streams clock]].
  unfold ensureCloudWatchSetup, try_catch, mbind, js_bind, bind, await, ret,
    console_error, print, set_sequenceToken.
  simpl.
  change (RefStore.env g n "LOG_GROUP_NAME") with (Some g).
  change (RefStore.env g n "LOG_STREAM_NAME") with (Some n).
  rewrite group_listed.
  destruct (existsb (String.eqb g) groups) eqn:Hgroup; simpl.
  - rewrite Hgroup.
    destruct (List.filter _ streams) as [|first rest] eqn:Hlisted; simpl.
    + rewrite Hgroup. simpl.
      rewrite (none_listed_no_stream _ Hlisted). simpl.
      by rewrite <- !app_assoc, !Z.add_0_r.
    + by rewrite <- !app_assoc, !Z.add_0_r.
  - rewrite Hgroup. simpl. rewrite existsb_snoc.
    destruct (List.filter _ streams) as [|first rest] eqn:Hlisted; simpl.
    + rewrite existsb_snoc. simpl.
      rewrite (none_listed_no_stream _ Hlisted). simpl.
      by rewrite <- !app_assoc.
    + by rewrite <- !app_assoc, !Z.add_0_r.
Qed.

Lemma find_app_none {A} (P : A -> bool) (l l' : list A) :
  find P l = None -> find P (l ++ l') = find P l'.
Proof.
  induction l as [|x l IH]; [done|]. simpl. destruct (P x); [done|exact IH].
Qed.

(** Without a sibling, the streams listed under the prefix are the
    configured stream. *)
Lemma listed_is_stream (w : RefStore.store) :
  no_sibling g n w ->
  head (List.filter (fun s => String.eqb (RefStore.group s) g
                              && String.prefix n (RefStore.name s))
                    (RefStore.streams w))
  = find (RefStore.is_stream g n) (RefStore.streams w).
Proof.
  intros Hsib. rewrite find_filter_head. f_equal.
  apply List.filter_ext_in. intros s Hin%list_elem_of_In.
  unfold RefStore.is_stream.
  destruct (String.eqb (RefStore.group s) g) eqn:Hg; [simpl|done].
  apply String.eqb_eq in Hg.
  destruct (String.prefix n (RefStore.name s)) eqn:Hp.
  - rewrite (Hsib s Hin Hg Hp). symmetry. apply eqb_refl_true.
  - symmetry. apply String.eqb_neq. intros Hn. rewrite Hn, prefix_refl in Hp.
    discriminate.
Qed.

(** Provisioning from a state that can be put in step with the store. *)
Lemma provision_in_sync m :
  no_sibling g n (cloud m) ->
  is_Some (find (RefStore.is_stream g n) (RefStore.streams (cloud m)))
  \/ wire_token (sequenceToken m) = None ->
  (ensureCloudWatchSetup m).2 = inr tt
  /\ in_sync g n (ensureCloudWatchSetup m).1
  /\ RefStore.events_of g n (cloud (ensureCloudWatchSetup m).1)
     = RefStore.events_of g n (cloud m).
Proof.
  intros Hsib Hstart. pose proof (listed_is_stream _ Hsib) as Hlisted.
  rewrite ensureCloudWatchSetup_on_store. simpl.
  split; [done|]. unfold in_sync, RefStore.events_of. simpl.
  destruct (List.filter _ (RefStore.streams (cloud m))) as [|first rest];
    simpl in Hlisted; rewrite <- Hlisted.
  - rewrite find_app_none by done. simpl.
    unfold RefStore.is_stream. simpl. rewrite !eqb_refl_true. simpl.
    split; [|done]. eexists. split; [reflexivity|]. simpl.
    destruct Hstart as [[s Hs]|Hnone]; [|exact Hnone].
    rewrite <- Hlisted in Hs. discriminate.
  - split; [|done]. exists first. split; [done|apply wire_token_of_optional].
Qed.

(** X12. A provisioning that no logging call overlaps puts the module in
    step with the store: when no other stream of the group has a name that
    starts with the configured one, and the stream is there or the module
    holds no token yet, then after provisioning the stream is there, the
    module holds the token the store expects, and the events of the stream
    are the ones it had. *)
Theorem provisioning_synchronises m :
  no_sibling g n (cloud m) ->
  is_Some (find (RefStore.is_stream g n) (RefStore.streams (cloud m)))
  \/ wire_token (sequenceToken m) = None ->
  (ensureCloudWatchSetup m).2 = inr tt
  /\ in_sync g n (ensureCloudWatchSetup m).1
  /\ RefStore.events_of g n (cloud (ensureCloudWatchSetup m).1)
     = RefStore.events_of g n (cloud m).
Proof.
  intros Hsib Hstart.
  destruct (provision_in_sync m Hsib Hstart) as (Hdone & Hsync & Hevents).
  by repeat split.
Qed.

(** X13. On the reference store provisioning never fails, and running it a
    second time creates nothing: the second run only lists the groups and
    the streams, and leaves the store as the first run left it. *)
Theorem provisioning_twice_creates_nothing m :
  let m1 := (ensureCloudWatchSetup m).1 in
  console m1 = console m
  /\ added m1 (ensureCloudWatchSetup m1).1
     = [DescribeLogGroups (Some g); DescribeLogStreams (Some g) (Some n)]
  /\ cloud (ensureCloudWatchSetup m1).1 = cloud m1
  /\ console (ensureCloudWatchSetup m1).1 = console m.
Proof.
  intros m1. subst m1. rewrite (ensureCloudWatchSetup_on_store m). simpl.
  split; [done|].
  set (m1 := @Build_machine rt _ _ _ _).
  assert (Hgroup : existsb (String.eqb g) (RefStore.groups (cloud m1)) = true).
  { simpl. destruct (existsb _ _) eqn:Hg; [exact Hg|apply existsb_snoc]. }
  assert (Hlisted : exists first rest,
    List.filter (fun s => String.eqb (RefStore.group s) g
                          && String.prefix n (RefStore.name s))
                (RefStore.streams (cloud m1)) = first :: rest).
  { simpl. destruct (List.filter _ (RefStore.streams (cloud m))) as [|first rest]
      eqn:Hl.
    - rewrite List.filter_app, Hl. simpl.
      rewrite eqb_refl_true, prefix_refl. simpl. eauto.
    - rewrite Hl. eauto. }
  destruct Hlisted as (first & rest & Hlisted).
  rewrite (ensureCloudWatchSetup_on_store m1). cbv zeta.
  rewrite Hgroup, Hlisted. simpl.
  split; [apply (@added_app rt); simpl; reflexivity|].
  split; [|done].
  destruct (cloud m1); simpl. f_equal. lia.
Qed.

(** X14. From the start of the process, when provisioning has completed
    before the first logging call and each logging call has completed
    before the next one starts: on a store where no other stream of the
    group has a name that starts with the configured one, every event the
    run emitted is delivered, after the events the stream already had and
    in the order of the calls. *)
Theorem provision_then_log_delivers_every_event
    (ops : list operation) (w : RefStore.store) :
  forallb is_logging ops = true ->
  no_sibling g n w ->
  let m' := run_all (Provision :: ops) (@initial rt w) in
  message <$> RefStore.events_of g n (cloud m')
  = (message <$> RefStore.events_of g n w) ++ (JSON_stringify <$> emitted m').
Proof.
  intros Hops Hsib m'. subst m'. simpl.
  destruct (provision_in_sync (@initial rt w) Hsib (or_intror eq_refl))
    as (_ & Hsync & Hevents).
  destruct (run_in_sync ops _ Hops Hsync) as (_ & logs & Hemitted & Hdelivered).
  rewrite Hdelivered, Hevents, Hemitted.
  by rewrite (@ensureCloudWatchSetup_emitted rt).
Qed.

Lemma put_without_stream log m :
  find (RefStore.is_stream g n) (RefStore.streams (cloud m)) = None ->
  putLogEvents (params log m) (cloud m)
    = (cloud m, inl (AWSError "ResourceNotFoundException" "request rejected")).
Proof.
  intros Hfind. simpl. unfold RefStore.put. simpl.
  change (RefStore.env g n "LOG_GROUP_NAME") with (Some g).
  change (RefStore.env g n "LOG_STREAM_NAME") with (Some n).
  simpl. by rewrite Hfind.
Qed.

(** X16. When the group has a stream whose name starts with the configured
    one but not the configured stream itself, provisioning creates nothing,
    and from then on no logging call delivers anything: the configured
    stream still does not exist, every append is rejected, and the store
    stays as provisioning found it. *)
Theorem sibling_stream_blocks_all_delivery (ops : list operation) m first rest :
  forallb is_logging ops = true ->
  existsb (String.eqb g) (RefStore.groups (cloud m)) = true ->
  find (RefStore.is_stream g n) (RefStore.streams (cloud m)) = None ->
  List.filter (fun s => String.eqb (RefStore.group s) g
                        && String.prefix n (RefStore.name s))
              (RefStore.streams (cloud m)) = first :: rest ->
  let m1 := (ensureCloudWatchSetup m).1 in
  cloud m1 = cloud m
  /\ sequenceToken m1 = of_optional (RefStore.expected first)
  /\ cloud (run_all ops m1) = cloud m.
Proof.
  intros Hops Hgroup Hfind Hlisted m1. subst m1.
  rewrite ensureCloudWatchSetup_on_store. cbv zeta.
  rewrite Hgroup, Hlisted. simpl.
  set (m1 := @Build_machine rt _ _ _ _).
  assert (Hcloud : cloud m1 = cloud m).
  { simpl. destruct (cloud m); simpl. f_equal. lia. }
  split; [exact Hcloud|]. split; [done|].
  rewrite <- Hcloud. rewrite <- Hcloud in Hfind. clear Hcloud Hlisted Hgroup.
  revert Hfind. generalize m1. clear m1.
  induction ops as [|op ops IH]; intros m1 Hfind; [done|].
  cbn [forallb] in Hops. apply andb_prop in Hops as [Hop Hops].
  simpl. destruct (logging_step op m1 Hop) as [-> | [log ->]].
  - by apply IH.
  - pose proof (put_without_stream log m1 Hfind) as Hput.
    rewrite (@enviarLogCloudWatch_rejected rt _ _ _ _ Hput).
    rewrite IH; [done|done|]. simpl. exact Hfind.
Qed.





End OnRefStore.

(** ** The startup hook *)

Section StartupHook.
Context {rt : Runtime}.
Variable error_object : exn -> value.

(** X15. The hook on the connection to MongoDB logs no event of level
    [info]. When the connection succeeds, the [logInfo] of the [then]
    callback throws on its [null] context before anything is printed or
    sent, the [catch] takes that error, and the hook is the append of an
    error event whose message is ["Erro ao logar mongodb"] followed by the
    text of the error [logInfo] threw; when the connection fails, the hook
    is the append of the error event of the failure. The route of the event
    is the empty string either way. *)
Theorem startup_hook_logs_an_error (failure : option (string * value)) m :
  exists log,
    on_connect error_object failure m = enviarLogCloudWatch log m
    /\ field "level" log = Some (VStr "error")
    /\ field "route" log = Some (VStr "")
    /\ match failure with
       | None =>
           exists err,
             logInfo (VStr "MongoDB conectado") VNull VUndefined m = (m, inl err)
             /\ field "message" log
                = Some (VStr ("Erro ao logar mongodb" +:+ error_toString err))
       | Some (text, _) =>
           field "message" log = Some (VStr ("Erro ao logar mongodb" +:+ text))
       end.
Proof.
  assert (Hfields : forall message error,
    exists log,
      logError message VNull error VUndefined m = enviarLogCloudWatch log m
      /\ field "level" log = Some (VStr "error")
      /\ field "route" log = Some (VStr "")
      /\ field "message" log = Some message).
  { intros message error.
    destruct (logError_unfold message VNull error VUndefined m)
      as (log & Hlog & Hsame).
    exists log. split; [exact Hlog|]. rewrite !Hsame by done.
    by rewrite field_gerarLog_level, field_gerarLog_route, field_gerarLog_message. }
  unfold on_connect. destruct failure as [[text detail]|].
  - destruct (Hfields (VStr ("Erro ao logar mongodb" +:+ text)) detail)
      as (log & Hlog & Hlevel & Hroute & Hmessage).
    by exists log.
  - destruct (member VNull "originalUrl") as [err|url] eqn:Hread;
      [|discriminate].
    assert (Hthrow :
      logInfo (VStr "MongoDB conectado") VNull VUndefined m = (m, inl err))
      by (by rewrite logInfo_unfold, Hread).
    unfold try_catch. rewrite Hthrow. cbv beta iota.
    destruct (Hfields (VStr ("Erro ao logar mongodb" +:+ error_toString err))
                (error_object err))
      as (log & Hlog & Hlevel & Hroute & Hmessage).
    exists log. split; [exact Hlog|]. split; [exact Hlevel|].
    split; [exact Hroute|]. by exists err.
Qed.

End StartupHook.

(** ** The further properties at concrete inputs *)

(** The listing under the prefix ["fatec-logs"] is not empty in either
    store: with ["fatec-logs-old"] alone the group is created, with
    ["fatec-logs-old"] and ["fatec-logs"] it is not. *)
Lemma group_created_iff_not_listed_witness :
  let old_only : RefStore.store :=
    {| RefStore.groups := ["fatec-logs-old"];
       RefStore.streams := []; RefStore.clock := 3 |} in
  let both : RefStore.store :=
    {| RefStore.groups := ["fatec-logs-old"; "fatec-logs"];
       RefStore.streams := []; RefStore.clock := 3 |} in
  CreateLogGroup (Some "fatec-logs")
    ∈ added (initial old_only) (ensureCloudWatchSetup (initial old_only)).1
  /\ CreateLogGroup (Some "fatec-logs")
      ∉ added (initial both) (ensureCloudWatchSetup (initial both)).1.
Proof.
  intros old_only both. split.
  - refine (proj2 (group_created_iff_not_listed (initial old_only) old_only
                     [ {| logGroupName := "fatec-logs-old" |} ] eq_refl) _).
    intros g Hin. apply list_elem_of_singleton in Hin. subst g. discriminate.
  - intros Hcreated.
    refine (proj1 (group_created_iff_not_listed (initial both) both
                     [ {| logGroupName := "fatec-logs-old" |};
                       {| logGroupName := "fatec-logs" |} ] eq_refl)
              Hcreated {| logGroupName := "fatec-logs" |} _ eq_refl).
    apply list_elem_of_In. simpl. auto.
Defined.

Lemma logError_error_field_witness :
  exists log,
    emitted (logError (VStr "Erro") Scenario.a_request VUndefined VUndefined
               Scenario.m_new).1 = [log]
    /\ field "error" log = Some (VObj {[ "error" := VObj ∅ ]}).
Proof.
  destruct (logError_error_field (VStr "Erro") Scenario.a_request VUndefined
              VUndefined Scenario.m_new) as (log & Hlog & _ & Hdefault).
  exists log. split; [exact Hlog|]. apply Hdefault. reflexivity.
Defined.

Lemma gerarLog_fields_witness :
  field "id" (gerarLog (VStr "info") (VStr "Produto criado") (VStr "/produtos")
                (VObj {[ "id" := VNum 7 ]})) = Some (VNum 7).
Proof.
  apply (proj1 (gerarLog_fields (VStr "info") (VStr "Produto criado")
                  (VStr "/produtos") (VObj {[ "id" := VNum 7 ]}) "id")).
  reflexivity.
Defined.

(** A string as the extra argument, spelling a reserved name: its code
    units are merged under their indices and the level stays. *)
Lemma primitive_extra_witness :
  let log := gerarLog (VStr "info") (VStr "Produto encontrado")
               (VStr "/produtos/7") (VStr "level") in
  field "level" log = Some (VStr "info")
  /\ field "0" log = Some (VStr "l")
  /\ field "4" log = Some (VStr "l")
  /\ field "5" log = None.
Proof.
  intros log.
  destruct (primitive_extra_keeps_reserved_fields (VStr "info")
              (VStr "Produto encontrado") (VStr "/produtos/7") (VStr "level"))
    as (Hlevel & _ & _ & Hunits); [discriminate..|].
  split; [exact Hlevel|].
  split; [exact (Hunits "level" 0 eq_refl)|].
  split; [exact (Hunits "level" 4 eq_refl)|exact (Hunits "level" 5 eq_refl)].
Defined.

Lemma logInfo_array_extra_witness :
  exists log,
    emitted (logInfo (VStr "Buckets encontrados") Scenario.a_request
               (VArr [VStr "fotos"; VStr "relatorios"]) Scenario.m_new).1 = [log]
    /\ field "1" log = Some (VStr "relatorios")
    /\ field "level" log = Some (VStr "info").
Proof.
  destruct (logInfo_array_extra (VStr "Buckets encontrados") Scenario.a_request
              [VStr "fotos"; VStr "relatorios"] Scenario.m_new
              (VStr "/produtos") eq_refl)
    as (log & Hlog & Hindex & Hlevel & _).
  exists log. split; [exact Hlog|]. split; [exact (Hindex 1)|exact Hlevel].
Defined.

Lemma fresh_in_sync : in_sync "fatec-logs" "api" Scenario.m_fresh.
Proof. eexists. split; reflexivity. Qed.


Lemma new_store_no_sibling : no_sibling "fatec-logs" "api" Scenario.w_new.
Proof.
  intros s Hin _ _. apply list_elem_of_singleton in Hin. by subst s.
Qed.

Lemma in_sync_run_witness :
  in_sync "fatec-logs" "api"
    (run_all [ Append Scenario.a_log;
               LogInfo (VStr "MongoDB conectado") VNull VUndefined;
               LogError (VStr "Erro") VNull VUndefined VUndefined ]
       Scenario.m_fresh).
Proof.
  apply (in_sync_run_delivers_every_event "fatec-logs" "api"
           [ Append Scenario.a_log;
             LogInfo (VStr "MongoDB conectado") VNull VUndefined;
             LogError (VStr "Erro") VNull VUndefined VUndefined ]
           Scenario.m_fresh eq_refl fresh_in_sync).
Defined.


Lemma provisioning_synchronises_witness :
  in_sync "fatec-logs" "api" (ensureCloudWatchSetup Scenario.m_new).1.
Proof.
  apply (provisioning_synchronises "fatec-logs" "api" Scenario.m_new
           new_store_no_sibling (or_intror eq_refl)).
Defined.

Lemma provision_then_log_witness :
  message <$> RefStore.events_of "fatec-logs" "api"
                (cloud (run_all [ Provision; Append Scenario.a_log;
                                  Append (VStr "segundo") ]
                          (initial Scenario.w_new)))
  = [JSON_stringify Scenario.a_log; JSON_stringify (VStr "segundo")].
Proof.
  etransitivity;
    [exact (provision_then_log_delivers_every_event "fatec-logs" "api"
              [Append Scenario.a_log; Append (VStr "segundo")] Scenario.w_new
              eq_refl new_store_no_sibling)|].
  reflexivity.
Defined.

Lemma sibling_stream_witness :
  cloud (run_all [ Append Scenario.a_log ]
           (ensureCloudWatchSetup (initial Scenario.w_sibling)).1)
  = Scenario.w_sibling.
Proof.
  apply (sibling_stream_blocks_all_delivery "fatec-logs" "api"
           [Append Scenario.a_log] (@initial Scenario.rt0 Scenario.w_sibling)
           {| RefStore.group := "fatec-logs"; RefStore.name := "api-dev";
              RefStore.expected := Some "tok-1";
              RefStore.delivered := [Scenario.an_event] |} []
           eq_refl eq_refl eq_refl eq_refl).
Defined.

